(** * pycbc.waveform.utils: phase unwrapping, phase and amplitude of a waveform

    A shallow embedding of [unwrap_phase], [phase_from_polarizations] and
    [amplitude_from_polarizations] from pycbc/waveform/utils.py. *)

From Stdlib Require Import QArith Qabs Lia Lqa ZArith.
From Stdlib Require Import Floats.
From stdpp Require Import base list.

Local Open Scope Q_scope.

(** ** Numbers as Python sees them

    [unwrap_phase] is duck-typed: it only uses [-], [+], [>=] and the
    integer literal [0] of its samples.  The class lists exactly these. *)

Class PyNum (A : Type) := {
  py_add : A -> A -> A;
  py_sub : A -> A -> A;
  py_ge : A -> A -> bool;   (** [py_ge a b] is Python's [a >= b] *)
  py_zero : A               (** the literal [0] of [total_offset = 0] *)
}.

(** Exact real samples (no rounding). *)
#[global] Instance PyNum_Q : PyNum Q := {
  py_add := Qplus;
  py_sub := Qminus;
  py_ge a b := Qle_bool b a;
  py_zero := 0
}.

Section Unwrap.
Context {A : Type} `{PyNum A}.

(** The loop's local variables: [nvec] (the deep copy being updated),
    [total_offset], [pval] ([None] is Python's [None]) and [index]. *)
Record unwrap_state := mk_state {
  nvec : list A;
  total_offset : A;
  pval : option A;
  index : nat
}.

(** The [if pval is None / elif / elif] chain of the loop body: the new
    value of [total_offset]. *)
Definition next_offset (discont offset tot : A) (pv : option A) (val : A) : A :=
  match pv with
  | None => tot
  | Some p =>
      if py_ge (py_sub val p) discont then py_sub tot offset
      else if py_ge (py_sub p val) discont then py_add tot offset
      else tot
  end.

(** One iteration of [for val in vec]: the offset update, then
    [nvec[index] += total_offset; index += 1; pval = val].  Reading
    [nvec[index]] out of range is Python's IndexError, here [None]. *)
Definition loop_body (discont offset : A) (s : unwrap_state) (val : A)
    : option unwrap_state :=
  let t := next_offset discont offset (total_offset s) (pval s) val in
  match nvec s !! index s with
  | None => None
  | Some x =>
      Some {| nvec := <[index s := py_add x t]> (nvec s);
              total_offset := t;
              pval := Some val;
              index := S (index s) |}
  end.

Fixpoint run_loop (discont offset : A) (s : unwrap_state) (vec : list A)
    : option unwrap_state :=
  match vec with
  | [] => Some s
  | val :: rest =>
      match loop_body discont offset s val with
      | None => None
      | Some s' => run_loop discont offset s' rest
      end
  end.

(** [unwrap_phase(vec, discont, offset)]: [nvec = copy.deepcopy(vec)],
    [total_offset = 0], [pval = None], [index = 0], the loop, [return nvec]. *)
Definition unwrap_phase (vec : list A) (discont offset : A) : option (list A) :=
  match run_loop discont offset
          {| nvec := vec; total_offset := py_zero; pval := None; index := 0 |} vec
  with
  | Some s => Some (nvec s)
  | None => None
  end.

(** The reference single-pass algorithm of the spec (section 4.1), in its
    own words: accumulator [total_offset] from 0, [previous] undefined;
    output [v + total_offset] after the current sample's jump; [previous]
    set to the raw value. *)
Fixpoint unwrap_ref_go (discontinuity offset : A) (acc : A) (previous : option A)
    (sequence : list A) : list A :=
  match sequence with
  | [] => []
  | v :: rest =>
      let acc' :=
        match previous with
        | None => acc
        | Some prev =>
            if py_ge (py_sub v prev) discontinuity then py_sub acc offset
            else if py_ge (py_sub prev v) discontinuity then py_add acc offset
            else acc
        end in
      py_add v acc' :: unwrap_ref_go discontinuity offset acc' (Some v) rest
  end.

Definition unwrap_ref (sequence : list A) (discontinuity offset : A) : list A :=
  unwrap_ref_go discontinuity offset py_zero None sequence.

End Unwrap.

(** ** Time series and elementwise arithmetic *)

(** [pycbc.types.TimeSeries]: samples with [delta_t] and [start_time]. *)
Record TimeSeries (A : Type) := mk_ts {
  ts_data : list A;
  delta_t : A;
  start_time : A
}.
Arguments mk_ts {A}.
Arguments ts_data {A}.
Arguments delta_t {A}.
Arguments start_time {A}.

(** Modelled from the spec: the elementwise binary operators of
    [pycbc.types] arrays (not in src/), applied to position-aligned series;
    series of different lengths are refused (an error, [None]). *)
Definition elementwise {A : Type} (f : A -> A -> A) (a b : list A) : option (list A) :=
  if Nat.eqb (length a) (length b) then Some (zip_with f a b) else None.

(** ** IEEE doubles with their special values, finite values exact

    [phase_from_polarizations] divides [h_plus / h_cross] sample by sample,
    which gives infinities and NaN; the model keeps those and keeps finite
    values as exact rationals.  Zero is [+0.0] (the sign of zero is not
    modelled). *)
Inductive fl := Fin (q : Q) | PInf | NInf | NaN.

Definition fl_add (a b : fl) : fl :=
  match a, b with
  | Fin x, Fin y => Fin (x + y)
  | NaN, _ | _, NaN => NaN
  | PInf, NInf | NInf, PInf => NaN
  | PInf, _ | _, PInf => PInf
  | NInf, _ | _, NInf => NInf
  end.

Definition fl_neg (a : fl) : fl :=
  match a with
  | Fin x => Fin (- x)
  | PInf => NInf
  | NInf => PInf
  | NaN => NaN
  end.

Definition fl_sub (a b : fl) : fl := fl_add a (fl_neg b).

(** [a <= b]; every comparison with NaN is false. *)
Definition fl_le (a b : fl) : bool :=
  match a, b with
  | NaN, _ | _, NaN => false
  | NInf, _ => true
  | _, PInf => true
  | Fin x, Fin y => Qle_bool x y
  | _, _ => false
  end.

Definition fl_div (a b : fl) : fl :=
  match a, b with
  | NaN, _ | _, NaN => NaN
  | Fin x, Fin y =>
      if Qeq_bool y 0 then
        (if Qeq_bool x 0 then NaN else if Qle_bool 0 x then PInf else NInf)
      else Fin (x / y)
  | Fin _, PInf | Fin _, NInf => Fin 0
  | PInf, PInf | PInf, NInf | NInf, PInf | NInf, NInf => NaN
  | PInf, Fin y => if Qle_bool 0 y then PInf else NInf
  | NInf, Fin y => if Qle_bool 0 y then NInf else PInf
  end.

(** Python's [abs]. *)
Definition fl_abs (a : fl) : fl :=
  match a with
  | Fin x => Fin (Qabs x)
  | PInf | NInf => PInf
  | NaN => NaN
  end.

#[global] Instance PyNum_fl : PyNum fl := {
  py_add := fl_add;
  py_sub := fl_sub;
  py_ge a b := fl_le b a;
  py_zero := Fin 0
}.

Section Phase.
(** [numpy.arctan] on finite arguments, its value at [+inf] ([pi/2]), and
    [lal.LAL_PI]: left as parameters, so what is proved holds for any. *)
Variable atan_fin : Q -> Q.
Variable half_pi : Q.
Variable lal_pi : Q.

Definition arctan (a : fl) : fl :=
  match a with
  | Fin x => Fin (atan_fin x)
  | PInf => Fin half_pi
  | NInf => Fin (- half_pi)
  | NaN => NaN
  end.

(** [phase_from_polarizations(h_plus, h_cross)]:
    [p_wrapped = numpy.arctan(h_plus/h_cross)];
    [p = unwrap_phase(p_wrapped, 0.7*lal.LAL_PI, lal.LAL_PI)];
    [p += -p[0]] (IndexError on an empty series);
    [TimeSeries(abs(p), delta_t=h_plus.delta_t, epoch=h_plus.start_time)]. *)
Definition phase_from_polarizations (h_plus h_cross : TimeSeries fl)
    : option (TimeSeries fl) :=
  match elementwise fl_div (ts_data h_plus) (ts_data h_cross) with
  | None => None
  | Some q =>
      let p_wrapped := map arctan q in
      match unwrap_phase p_wrapped (Fin (0.7 * lal_pi)) (Fin lal_pi) with
      | None => None
      | Some p =>
          match p !! 0%nat with
          | None => None
          | Some p0 =>
              let p' := map (fun x => fl_add x (fl_neg p0)) p in
              Some (mk_ts (map fl_abs p') (delta_t h_plus) (start_time h_plus))
          end
      end
  end.
End Phase.

(** ** Amplitude, on the machine's doubles *)

(** Modelled from the spec: [TimeSeries.squared_norm()] of [pycbc.types]
    (not in src/), the elementwise square of a real series. *)
Definition squared_norm (v : list float) : list float :=
  map (fun x => PrimFloat.mul x x) v.

(** [amplitude_from_polarizations(h_plus, h_cross)]:
    [amp = (h_plus.squared_norm() + h_cross.squared_norm()) ** (0.5)]
    (numpy computes an array to the power [0.5] with [sqrt]), then
    [TimeSeries(amp, delta_t=h_plus.delta_t, epoch=h_plus.start_time)]. *)
Definition amplitude_from_polarizations (h_plus h_cross : TimeSeries float)
    : option (TimeSeries float) :=
  match elementwise PrimFloat.add (squared_norm (ts_data h_plus))
                                  (squared_norm (ts_data h_cross)) with
  | None => None
  | Some s => Some (mk_ts (map PrimFloat.sqrt s) (delta_t h_plus) (start_time h_plus))
  end.

Lemma run_loop_ref {A} `{PyNum A} (d o : A) (r pre : list A) (t : A) (pv : option A) :
  exists s', run_loop d o (mk_state (pre ++ r) t pv (length pre)) r = Some s' /\
             nvec s' = pre ++ unwrap_ref_go d o t pv r.
Proof.
  revert pre t pv; induction r as [|v r IH]; intros pre t pv; simpl.
  - eexists; split; [reflexivity|]. simpl. by rewrite app_nil_r.
  - unfold loop_body; simpl.
    rewrite lookup_app_r by lia. rewrite Nat.sub_diag. simpl.
    rewrite insert_app_r_alt by lia. rewrite Nat.sub_diag. simpl.
    destruct (IH (pre ++ [py_add v (next_offset d o t pv v)])
                 (next_offset d o t pv v) (Some v)) as [s' [Hrun Hn]].
    rewrite length_app in Hrun. simpl in Hrun. rewrite Nat.add_1_r in Hrun.
    rewrite <- app_assoc in Hrun. simpl in Hrun.
    exists s'. split; [exact Hrun|]. rewrite Hn, <- app_assoc. reflexivity.
Qed.

Lemma unwrap_phase_ref {A} `{PyNum A} (vec : list A) (d o : A) :
  unwrap_phase vec d o = Some (unwrap_ref vec d o).
Proof.
  unfold unwrap_phase, unwrap_ref.
  destruct (run_loop_ref d o vec [] py_zero None) as [s' [Hrun Hn]].
  simpl in Hrun. rewrite Hrun, Hn. reflexivity.
Qed.

Lemma unwrap_ref_go_length {A} `{PyNum A} (d o t : A) (pv : option A) (l : list A) :
  length (unwrap_ref_go d o t pv l) = length l.
Proof.
  revert t pv; induction l as [|v l IH]; intros t pv; simpl; [done|]. by rewrite IH.
Qed.

Lemma Qplus_0_r_eq (q : Q) : q + 0 = q.
Proof.
  destruct q as [n p]. unfold Qplus; simpl.
  rewrite Z.mul_1_r, Pos.mul_1_r, Z.add_0_r. reflexivity.
Qed.

(** C1: [unwrap_phase] equals the spec's reference single pass: accumulator
    from 0, decremented by [offset] on an upward jump [>= discont],
    incremented on a downward one, output [v + total_offset] after the
    current sample's jump, previous value always the raw input. *)
Theorem unwrap_phase_refines_reference {A} `{PyNum A} (vec : list A) (discont offset : A) :
  unwrap_phase vec discont offset = Some (unwrap_ref vec discont offset).
Proof. apply unwrap_phase_ref. Qed.

(** C6: [unwrap_phase] returns a list of exactly the input's length (the
    empty input gives the empty output). *)
Theorem unwrap_phase_length {A} `{PyNum A} (vec : list A) (discont offset : A) :
  unwrap_phase [] discont offset = Some [] /\
  exists out, unwrap_phase vec discont offset = Some out /\ length out = length vec.
Proof.
  split; [reflexivity|].
  exists (unwrap_ref vec discont offset). split; [apply unwrap_phase_ref|].
  apply unwrap_ref_go_length.
Qed.

(** C9: [unwrap_phase([0.0, 1.0, 2.0], 0.7, 1.0)] is [[0.0, 0.0, 0.0]]. *)
Theorem unwrap_phase_example : unwrap_phase [0; 1; 2] 0.7 1 = Some [0; 0; 0].
Proof. vm_compute. reflexivity. Qed.

Lemma unwrap_ref_go_cons {A} `{PyNum A} (d o acc v : A) (prev : option A) (rest : list A) :
  unwrap_ref_go d o acc prev (v :: rest) =
  py_add v (next_offset d o acc prev v) ::
  unwrap_ref_go d o (next_offset d o acc prev v) (Some v) rest.
Proof. reflexivity. Qed.

Lemma Qle_bool_false (x y : Q) : ~ (x <= y) -> Qle_bool x y = false.
Proof.
  intros Hn. destruct (Qle_bool x y) eqn:E; [|reflexivity].
  apply Qle_bool_iff in E. contradiction.
Qed.

Lemma Qle_bool_true (x y : Q) : x <= y -> Qle_bool x y = true.
Proof. apply Qle_bool_iff. Qed.

(** Without a jump [>= discont] from the previous raw sample, the
    accumulator stays the literal [0] and every sample is returned as is. *)
Lemma unwrap_ref_go_jump_free (d o p : Q) (vec : list Q) :
  (forall i a b, (p :: vec) !! i = Some a -> (p :: vec) !! (S i) = Some b ->
     ~ (d <= b - a) /\ ~ (d <= a - b)) ->
  unwrap_ref_go d o 0 (Some p) vec = vec.
Proof.
  revert p; induction vec as [|v vec IH]; intros p Hjf; [reflexivity|].
  rewrite unwrap_ref_go_cons.
  destruct (Hjf 0%nat p v eq_refl eq_refl) as [Hup Hdown].
  assert (Hn : next_offset d o 0 (Some p) v = 0).
  { simpl. rewrite (Qle_bool_false _ _ Hup), (Qle_bool_false _ _ Hdown). reflexivity. }
  rewrite Hn. simpl py_add. rewrite Qplus_0_r_eq. f_equal.
  apply IH. intros i a b Ha Hb. exact (Hjf (S i) a b Ha Hb).
Qed.

Lemma next_offset_multiple (d o acc v : Q) (prev : option Q) (k : Z) :
  acc == inject_Z k * o ->
  exists k', next_offset d o acc prev v == inject_Z k' * o /\
             (Z.abs (k' - k) <= 1)%Z /\ (prev = None -> k' = k).
Proof.
  intros Hacc. destruct prev as [p|]; simpl.
  - destruct (Qle_bool d (v - p)); [|destruct (Qle_bool d (p - v))].
    + exists (k - 1)%Z. split; [|split; [lia|discriminate]].
      rewrite Hacc. unfold Z.sub. rewrite inject_Z_plus, inject_Z_opp. ring.
    + exists (k + 1)%Z. split; [|split; [lia|discriminate]].
      rewrite Hacc, inject_Z_plus. ring.
    + exists k. split; [exact Hacc|split; [lia|discriminate]].
  - exists k. split; [exact Hacc|split; [lia|reflexivity]].
Qed.

(** The accumulator is always an integer number of [offset] steps, moving
    by at most one step per sample. *)
Lemma unwrap_ref_go_multiples (d o : Q) (vec : list Q) :
  forall (acc : Q) (k : Z) (prev : option Q), acc == inject_Z k * o ->
  exists ks,
    length ks = length vec /\
    (forall k0, ks !! 0%nat = Some k0 -> (Z.abs (k0 - k) <= 1)%Z /\ (prev = None -> k0 = k)) /\
    (forall i x v kk, unwrap_ref_go d o acc prev vec !! i = Some x -> vec !! i = Some v ->
       ks !! i = Some kk -> x - v == inject_Z kk * o) /\
    (forall i k1 k2, ks !! i = Some k1 -> ks !! (S i) = Some k2 -> (Z.abs (k2 - k1) <= 1)%Z).
Proof.
  induction vec as [|v vec IH]; intros acc k prev Hacc.
  - exists []. repeat split; intros; discriminate.
  - destruct (next_offset_multiple d o acc v prev k Hacc) as [k' [Hk' [Hb Hn]]].
    destruct (IH _ k' (Some v) Hk') as [ks [Hl [H0 [Hp Ha]]]].
    exists (k' :: ks). rewrite unwrap_ref_go_cons. split; [simpl; lia|]. split; [|split].
    + intros k0 E. simpl in E. injection E as <-. split; [exact Hb|exact Hn].
    + intros [|i] x w kk Ex Ew Ek; simpl in Ex, Ew, Ek.
      * injection Ex as <-. injection Ew as <-. injection Ek as <-.
        simpl py_add. rewrite <- Hk'. ring.
      * exact (Hp i x w kk Ex Ew Ek).
    + intros [|i] k1 k2 E1 E2; simpl in E1, E2.
      * injection E1 as <-. exact (proj1 (H0 k2 E2)).
      * exact (Ha i k1 k2 E1 E2).
Qed.

(** C5: on a sequence with no two consecutive samples differing by
    [>= discont] in either direction, [unwrap_phase] returns the sequence
    itself. *)
Theorem unwrap_phase_jump_free (vec : list Q) (discont offset : Q)
  (Hjf : forall i a b, vec !! i = Some a -> vec !! (S i) = Some b ->
         ~ (discont <= b - a) /\ ~ (discont <= a - b)) :
  unwrap_phase vec discont offset = Some vec.
Proof.
  rewrite unwrap_phase_ref. unfold unwrap_ref. f_equal.
  destruct vec as [|x vec]; [reflexivity|].
  rewrite unwrap_ref_go_cons. simpl next_offset. simpl py_add. simpl py_zero.
  rewrite Qplus_0_r_eq. f_equal. apply unwrap_ref_go_jump_free. exact Hjf.
Qed.

(** C10: at every index the applied correction [out[i] - vec[i]] is
    [k_i * offset] for an integer [k_i], with [k_0 = 0] (the first output
    sample equals the first input sample) and [|k_(i+1) - k_i| <= 1]. *)
Theorem unwrap_phase_offset_multiples (vec : list Q) (discont offset : Q) :
  exists out ks,
    unwrap_phase vec discont offset = Some out /\
    length ks = length vec /\
    (forall k0, ks !! 0%nat = Some k0 -> k0 = 0%Z) /\
    (forall x v, out !! 0%nat = Some x -> vec !! 0%nat = Some v -> x == v) /\
    (forall i x v k, out !! i = Some x -> vec !! i = Some v -> ks !! i = Some k ->
       x - v == inject_Z k * offset) /\
    (forall i k k', ks !! i = Some k -> ks !! (S i) = Some k' -> (Z.abs (k' - k) <= 1)%Z).
Proof.
  assert (Hacc : (0 : Q) == inject_Z 0 * offset) by ring.
  destruct (unwrap_ref_go_multiples discont offset vec 0 0%Z None Hacc)
    as [ks [Hl [H0 [Hp Ha]]]].
  exists (unwrap_ref vec discont offset), ks.
  split; [apply unwrap_phase_ref|]. split; [exact Hl|].
  assert (Hk0 : forall k0, ks !! 0%nat = Some k0 -> k0 = 0%Z)
    by (intros k0 E; exact (proj2 (H0 k0 E) eq_refl)).
  split; [exact Hk0|]. split; [|split; [exact Hp|exact Ha]].
  intros x v Ex Ev.
  destruct (ks !! 0%nat) as [k0|] eqn:Ek.
  - pose proof (Hp 0%nat x v k0 Ex Ev Ek) as Hd. rewrite (Hk0 k0 eq_refl) in Hd.
    assert (Hz : x - v == 0) by (rewrite Hd; ring).
    lra.
  - apply lookup_ge_None in Ek. apply lookup_lt_Some in Ev. lia.
Qed.

(** C7: a jump of exactly [discont] triggers the correction ([>=], not
    [>]), upward or downward; and with [discont > 0] the two conditions of
    the [elif] chain never hold together, so at most one branch fires. *)
Theorem unwrap_threshold_inclusive (discont offset tot p v : Q) :
  (v - p == discont -> next_offset discont offset tot (Some p) v = tot - offset) /\
  (0 < discont -> p - v == discont ->
     next_offset discont offset tot (Some p) v = tot + offset) /\
  (0 < discont ->
     ~ (py_ge (v - p) discont = true /\ py_ge (p - v) discont = true)).
Proof.
  split; [|split].
  - intros He. simpl. rewrite Qle_bool_true; [reflexivity|]. rewrite He. apply Qle_refl.
  - intros Hd He. simpl.
    rewrite Qle_bool_false by lra. rewrite Qle_bool_true by lra. reflexivity.
  - intros Hd [H1 H2]. simpl in H1, H2.
    apply Qle_bool_iff in H1. apply Qle_bool_iff in H2. lra.
Qed.

(** C8: from any loop state whose previous raw sample is [p], a downward
    jump by [j >= discont] to [v] followed by an upward jump by [j] to [w]
    leaves [total_offset] where it was. *)
Theorem unwrap_jump_roundtrip (discont offset j p v w : Q) (s : @unwrap_state Q) :
  0 < discont -> discont <= j -> p - v == j -> w - v == j ->
  pval s = Some p -> (index s + 2 <= length (nvec s))%nat ->
  exists s', run_loop discont offset s [v; w] = Some s' /\
             total_offset s' == total_offset s.
Proof.
  intros Hd Hj Hdown Hup Hp Hlen.
  destruct s as [nv t pv k]; simpl in Hp, Hlen; subst pv.
  simpl run_loop. unfold loop_body. simpl nvec; simpl index; simpl pval; simpl total_offset.
  destruct (nv !! k) as [x|] eqn:E1; [|apply lookup_ge_None in E1; lia].
  cbv beta iota. simpl index. simpl nvec.
  rewrite list_lookup_insert_ne by lia.
  destruct (nv !! S k) as [y|] eqn:E2; [|apply lookup_ge_None in E2; lia].
  eexists; split; [reflexivity|]. simpl.
  rewrite (Qle_bool_false discont (v - p)) by lra.
  rewrite (Qle_bool_true discont (p - v)) by lra.
  rewrite (Qle_bool_true discont (w - v)) by lra.
  ring.
Qed.

(** C4, as the code has it: on [[0, discont, 2*discont]] each of the two
    steps triggers exactly one correction, and it is the upward-jump
    branch [total_offset -= offset]: the corrections are [-offset] then
    [-2*offset], opposite in sign to the jump when [offset > 0]. *)
Theorem unwrap_phase_threshold_steps (discont offset : Q) (Hd : 0 < discont) :
  exists out,
    unwrap_phase [0; discont; 2 * discont] discont offset = Some out /\
    Forall2 Qeq out [0; discont - offset; 2 * discont - 2 * offset].
Proof.
  rewrite unwrap_phase_ref. eexists; split; [reflexivity|].
  unfold unwrap_ref. rewrite !unwrap_ref_go_cons.
  cbn [next_offset py_ge py_sub py_add py_zero PyNum_Q unwrap_ref_go].
  rewrite (Qle_bool_true discont (discont - 0)) by lra.
  rewrite (Qle_bool_true discont (2 * discont - discont)) by lra.
  repeat constructor; ring.
Qed.

(** C4 fails as stated: on [[0, 1, 2]] with [discont = offset = 1] the
    jumps are positive but the cumulative corrections [out[i] - S[i]] are
    [-1] and [-2], not positive. *)
Lemma unwrap_phase_threshold_steps_cex :
  exists out,
    unwrap_phase [0; 1; 2] 1 1 = Some out /\
    ~ (0 < nth 1 out 0 - 1) /\ ~ (0 < nth 2 out 0 - 2).
Proof.
  eexists; split; [vm_compute; reflexivity|].
  split; intro Hc; vm_compute in Hc; discriminate.
Qed.

Lemma lookup_map_opt {A B} (f : A -> B) (l : list A) (i : nat) :
  map f l !! i = option_map f (l !! i).
Proof.
  revert i; induction l as [|x l IH]; intros [|i]; simpl; auto.
Qed.

Lemma lookup_zip_with_opt {A} (f : A -> A -> A) (a b : list A) (i : nat) x y :
  a !! i = Some x -> b !! i = Some y -> zip_with f a b !! i = Some (f x y).
Proof.
  revert b i; induction a as [|u a IH]; intros [|w b] [|i] Ha Hb; simpl in *;
    try discriminate.
  - injection Ha as <-. injection Hb as <-. reflexivity.
  - apply IH; assumption.
Qed.

Lemma elementwise_same_length {A} (f : A -> A -> A) (a b : list A) :
  length a = length b -> elementwise f a b = Some (zip_with f a b).
Proof. intros Hl. unfold elementwise. rewrite Hl, Nat.eqb_refl. reflexivity. Qed.

(** C3: on equal-length series, [amplitude_from_polarizations] is
    [sqrt(h_plus[i]^2 + h_cross[i]^2)] at every index (each operation one
    IEEE double operation); on [[3.0]] and [[4.0]] it is exactly [[5.0]]. *)
Theorem amplitude_from_polarizations_pointwise :
  (forall h_plus h_cross : TimeSeries float,
     length (ts_data h_plus) = length (ts_data h_cross) ->
     exists r, amplitude_from_polarizations h_plus h_cross = Some r /\
       length (ts_data r) = length (ts_data h_plus) /\
       forall i a b, ts_data h_plus !! i = Some a -> ts_data h_cross !! i = Some b ->
         ts_data r !! i =
           Some (PrimFloat.sqrt (PrimFloat.add (PrimFloat.mul a a) (PrimFloat.mul b b)))) /\
  (exists r, amplitude_from_polarizations (mk_ts [3.0%float] 1%float 0%float)
                                          (mk_ts [4.0%float] 1%float 0%float) = Some r /\
             ts_data r = [5.0%float]).
Proof.
  split.
  - intros hp hc Hl. unfold amplitude_from_polarizations.
    rewrite elementwise_same_length by (unfold squared_norm; rewrite !length_map; exact Hl).
    eexists; split; [reflexivity|]. simpl. split.
    + rewrite length_map. unfold squared_norm.
      revert Hl. generalize (ts_data hc). induction (ts_data hp) as [|x l IH];
        intros [|y m] Hl; simpl in *; try discriminate; [reflexivity|].
      f_equal. apply IH. lia.
    + intros i a b Ha Hb. rewrite lookup_map_opt.
      rewrite (lookup_zip_with_opt _ _ _ i (PrimFloat.mul a a) (PrimFloat.mul b b)).
      * reflexivity.
      * unfold squared_norm. rewrite lookup_map_opt, Ha. reflexivity.
      * unfold squared_norm. rewrite lookup_map_opt, Hb. reflexivity.
  - eexists; split; [vm_compute; reflexivity|]. vm_compute. reflexivity.
Qed.

(** On finite samples the [fl] loop is the exact one. *)
Lemma next_offset_fin (d o acc v : Q) (prev : option Q) :
  next_offset (Fin d) (Fin o) (Fin acc) (option_map Fin prev) (Fin v) =
  Fin (next_offset d o acc prev v).
Proof.
  destruct prev as [p|]; [|reflexivity]. simpl. unfold Qminus.
  destruct (Qle_bool d (v + - p)); [reflexivity|].
  destruct (Qle_bool d (p + - v)); reflexivity.
Qed.

Lemma unwrap_ref_go_fin (d o : Q) (l : list Q) :
  forall (acc : Q) (prev : option Q),
  unwrap_ref_go (Fin d) (Fin o) (Fin acc) (option_map Fin prev) (map Fin l) =
  map Fin (unwrap_ref_go d o acc prev l).
Proof.
  induction l as [|v l IH]; intros acc prev; [reflexivity|].
  simpl map. rewrite !unwrap_ref_go_cons, next_offset_fin.
  simpl map. f_equal. exact (IH _ (Some v)).
Qed.

Lemma arctan_div_fin (atan_fin : Q -> Q) (half_pi a b : Q) :
  ~ (a == 0 /\ b == 0) ->
  exists w, arctan atan_fin half_pi (fl_div (Fin a) (Fin b)) = Fin w.
Proof.
  intros Hnz. simpl.
  destruct (Qeq_bool b 0) eqn:Eb; [|eexists; reflexivity].
  destruct (Qeq_bool a 0) eqn:Ea.
  - exfalso. apply Hnz. split; apply Qeq_bool_iff; assumption.
  - destruct (Qle_bool 0 a); eexists; reflexivity.
Qed.

Lemma wrapped_phase_finite (atan_fin : Q -> Q) (half_pi : Q) (hp hc : list fl) :
  Forall (fun x => exists q, x = Fin q) hp ->
  Forall (fun x => exists q, x = Fin q) hc ->
  Forall2 (fun x y => forall a b, x = Fin a -> y = Fin b -> ~ (a == 0 /\ b == 0)) hp hc ->
  exists ws, map (arctan atan_fin half_pi) (zip_with fl_div hp hc) = map Fin ws /\
             length ws = length hp.
Proof.
  intros Fp Fc F2. induction F2 as [|x y hp hc Hxy F2 IH]; [exists []; done|].
  inversion Fp as [|? ? [a ->] Fp']; subst.
  inversion Fc as [|? ? [b ->] Fc']; subst.
  destruct (IH Fp' Fc') as [ws [Hws Hl]].
  destruct (arctan_div_fin atan_fin half_pi a b (Hxy a b eq_refl eq_refl)) as [w Hw].
  exists (w :: ws).
  change (map (arctan atan_fin half_pi) (zip_with fl_div (Fin a :: hp) (Fin b :: hc)))
    with (arctan atan_fin half_pi (fl_div (Fin a) (Fin b)) ::
          map (arctan atan_fin half_pi) (zip_with fl_div hp hc)).
  rewrite Hw, Hws. simpl. rewrite Hl. done.
Qed.

Lemma next_offset_fl_fin (d o acc : Q) (pv : option fl) (v : fl) :
  exists q, next_offset (Fin d) (Fin o) (Fin acc) pv v = Fin q.
Proof.
  destruct pv as [p|]; [|eexists; reflexivity]. unfold next_offset.
  destruct (py_ge _ _); [eexists; reflexivity|].
  destruct (py_ge _ _); eexists; reflexivity.
Qed.

(** With a finite [discont] and [offset], each output sample is the input
    sample plus a finite correction. *)
Lemma unwrap_ref_go_fl (d o : Q) (l : list fl) :
  forall (acc : Q) (prev : option fl) i x, l !! i = Some x ->
  exists q, unwrap_ref_go (Fin d) (Fin o) (Fin acc) prev l !! i = Some (fl_add x (Fin q)).
Proof.
  induction l as [|v l IH]; intros acc prev i x Hx; [discriminate|].
  destruct (next_offset_fl_fin d o acc prev v) as [a' Ha'].
  rewrite unwrap_ref_go_cons, Ha'.
  destruct i as [|i]; simpl in Hx |- *.
  - injection Hx as <-. exists a'. reflexivity.
  - exact (IH a' (Some v) i x Hx).
Qed.

Lemma fl_div_zero_zero (a b : Q) : a == 0 -> b == 0 -> fl_div (Fin a) (Fin b) = NaN.
Proof.
  intros Ha Hb. simpl.
  rewrite (proj2 (Qeq_bool_iff b 0) Hb), (proj2 (Qeq_bool_iff a 0) Ha). reflexivity.
Qed.

(** Shared core: the phase at an index where both polarizations are 0,
    given a first sample that is not 0/0. *)
Lemma phase_from_polarizations_nan_core (atan_fin : Q -> Q) (half_pi lal_pi : Q)
    (h_plus h_cross : TimeSeries fl) :
  length (ts_data h_plus) = length (ts_data h_cross) ->
  (exists a0 b0, ts_data h_plus !! 0%nat = Some (Fin a0) /\
                 ts_data h_cross !! 0%nat = Some (Fin b0) /\ ~ (a0 == 0 /\ b0 == 0)) ->
  exists r, phase_from_polarizations atan_fin half_pi lal_pi h_plus h_cross = Some r /\
    forall i a b, ts_data h_plus !! i = Some (Fin a) -> ts_data h_cross !! i = Some (Fin b) ->
      (a == 0 /\ b == 0 -> ts_data r !! i = Some NaN) /\
      (~ (a == 0 /\ b == 0) -> exists q, ts_data r !! i = Some (Fin q) /\ 0 <= q).
Proof.
  intros Hl [a0 [b0 [Ha0 [Hb0 Hnz0]]]].
  set (W := map (arctan atan_fin half_pi) (zip_with fl_div (ts_data h_plus) (ts_data h_cross))).
  assert (HW : forall i a b, ts_data h_plus !! i = Some a -> ts_data h_cross !! i = Some b ->
                W !! i = Some (arctan atan_fin half_pi (fl_div a b))).
  { intros i a b Ha Hb. unfold W. rewrite lookup_map_opt.
    rewrite (lookup_zip_with_opt _ _ _ i a b Ha Hb). reflexivity. }
  unfold phase_from_polarizations. rewrite elementwise_same_length by exact Hl.
  cbv zeta. fold W. rewrite unwrap_phase_ref. cbv beta iota.
  unfold unwrap_ref. change (@py_zero fl _) with (Fin 0).
  destruct (arctan_div_fin atan_fin half_pi a0 b0 Hnz0) as [w0 Hw0].
  destruct (unwrap_ref_go_fl (0.7 * lal_pi) lal_pi W 0 None 0%nat _ (HW _ _ _ Ha0 Hb0))
    as [q0 Hq0].
  rewrite Hq0, Hw0. eexists; split; [reflexivity|].
  intros i a b Ha Hb. cbn [ts_data]. rewrite !lookup_map_opt.
  destruct (unwrap_ref_go_fl (0.7 * lal_pi) lal_pi W 0 None i _ (HW _ _ _ Ha Hb))
    as [qi Hqi].
  rewrite Hqi. cbn [option_map]. split.
  - intros [Ha' Hb']. rewrite (fl_div_zero_zero a b Ha' Hb'). reflexivity.
  - intros Hnz. destruct (arctan_div_fin atan_fin half_pi a b Hnz) as [w Hw].
    rewrite Hw. cbn [fl_abs fl_add fl_neg].
    eexists; split; [reflexivity|]. apply Qabs_nonneg.
Qed.

(** When the first samples are both 0, [p[0]] is NaN and every sample of
    the phase is NaN. *)
Lemma phase_from_polarizations_all_nan (atan_fin : Q -> Q) (half_pi lal_pi : Q)
    (h_plus h_cross : TimeSeries fl) (a0 b0 : Q) :
  length (ts_data h_plus) = length (ts_data h_cross) ->
  ts_data h_plus !! 0%nat = Some (Fin a0) -> ts_data h_cross !! 0%nat = Some (Fin b0) ->
  a0 == 0 -> b0 == 0 ->
  exists r, phase_from_polarizations atan_fin half_pi lal_pi h_plus h_cross = Some r /\
    length (ts_data r) = length (ts_data h_plus) /\ Forall (fun x => x = NaN) (ts_data r).
Proof.
  intros Hl Ha0 Hb0 Za Zb.
  set (W := map (arctan atan_fin half_pi) (zip_with fl_div (ts_data h_plus) (ts_data h_cross))).
  assert (HW0 : W !! 0%nat = Some (arctan atan_fin half_pi (fl_div (Fin a0) (Fin b0)))).
  { unfold W. rewrite lookup_map_opt.
    rewrite (lookup_zip_with_opt _ _ _ 0%nat _ _ Ha0 Hb0). reflexivity. }
  unfold phase_from_polarizations. rewrite elementwise_same_length by exact Hl.
  cbv zeta. fold W. rewrite unwrap_phase_ref. cbv beta iota.
  unfold unwrap_ref. change (@py_zero fl _) with (Fin 0).
  destruct (unwrap_ref_go_fl (0.7 * lal_pi) lal_pi W 0 None 0%nat _ HW0) as [q0 Hq0].
  rewrite Hq0, (fl_div_zero_zero a0 b0 Za Zb).
  eexists; split; [reflexivity|]. cbn [ts_data arctan fl_add fl_neg]. split.
  - rewrite !length_map, unwrap_ref_go_length. unfold W.
    rewrite length_map, length_zip_with. lia.
  - apply List.Forall_map, List.Forall_map, Forall_true. intros z. destruct z; reflexivity.
Qed.

(** C2, as the code has it, for position-aligned polarizations with finite
    samples (for any [arctan] and any value of [LAL_PI]):
    - non-empty, with no index where [h_plus[i] = h_cross[i] = 0]: the
      phase exists, its first sample is exactly 0 and every sample is a
      non-negative number;
    - [h_plus[0] = h_cross[0] = 0]: the phase exists, has the input's
      length, and every sample is NaN;
    - an index where [h_plus[i] = h_cross[i] = 0] (unguarded [0/0]): the
      phase exists and is NaN at that index. *)
Theorem phase_from_polarizations_start_nonneg (atan_fin : Q -> Q) (half_pi lal_pi : Q)
    (h_plus h_cross : TimeSeries fl) :
  (ts_data h_plus <> [] ->
   Forall (fun x => exists q, x = Fin q) (ts_data h_plus) ->
   Forall (fun x => exists q, x = Fin q) (ts_data h_cross) ->
   Forall2 (fun x y => forall a b, x = Fin a -> y = Fin b -> ~ (a == 0 /\ b == 0))
           (ts_data h_plus) (ts_data h_cross) ->
   exists r, phase_from_polarizations atan_fin half_pi lal_pi h_plus h_cross = Some r /\
     (exists q0, ts_data r !! 0%nat = Some (Fin q0) /\ q0 == 0) /\
     (forall i x, ts_data r !! i = Some x -> exists q, x = Fin q /\ 0 <= q)) /\
  (length (ts_data h_plus) = length (ts_data h_cross) ->
   forall a0 b0, ts_data h_plus !! 0%nat = Some (Fin a0) ->
   ts_data h_cross !! 0%nat = Some (Fin b0) -> a0 == 0 -> b0 == 0 ->
   exists r, phase_from_polarizations atan_fin half_pi lal_pi h_plus h_cross = Some r /\
     length (ts_data r) = length (ts_data h_plus) /\
     Forall (fun x => x = NaN) (ts_data r)) /\
  (length (ts_data h_plus) = length (ts_data h_cross) ->
   Forall (fun x => exists q, x = Fin q) (ts_data h_plus) ->
   Forall (fun x => exists q, x = Fin q) (ts_data h_cross) ->
   forall i a b, ts_data h_plus !! i = Some (Fin a) ->
   ts_data h_cross !! i = Some (Fin b) -> a == 0 -> b == 0 ->
   exists r, phase_from_polarizations atan_fin half_pi lal_pi h_plus h_cross = Some r /\
     ts_data r !! i = Some NaN).
Proof.
  split; [|split].
  - intros Hne Fp Fc F2.
    destruct (wrapped_phase_finite atan_fin half_pi _ _ Fp Fc F2) as [ws [Hws Hl]].
    unfold phase_from_polarizations.
    rewrite elementwise_same_length by exact (Forall2_length _ _ _ F2).
    cbv zeta. rewrite Hws, unwrap_phase_ref. unfold unwrap_ref.
    change (@py_zero fl _) with (Fin 0).
    change (@None fl) with (option_map Fin (@None Q)).
    rewrite unwrap_ref_go_fin.
    destruct ws as [|w ws]; [destruct (ts_data h_plus); simpl in Hl; done|].
    rewrite unwrap_ref_go_cons. simpl (map Fin _ !! 0%nat).
    eexists; split; [reflexivity|]. split.
    + eexists; split; [reflexivity|].
      change (Qabs ((w + 0) + - (w + 0)) == 0). rewrite Qplus_opp_r. reflexivity.
    + intros i x Hx. cbn [ts_data] in Hx. rewrite !lookup_map_opt in Hx.
      destruct (_ !! i) as [q|]; cbn [option_map] in Hx; [|discriminate].
      injection Hx as <-. cbn [fl_abs fl_add fl_neg].
      eexists; split; [reflexivity|]. unfold Qle; simpl; lia.
  - intros Hl a0 b0 Ha0 Hb0 Za Zb.
    exact (phase_from_polarizations_all_nan atan_fin half_pi lal_pi h_plus h_cross
             a0 b0 Hl Ha0 Hb0 Za Zb).
  - intros Hl Fp Fc i a b Ha Hb Za Zb.
    assert (Hi : (i < length (ts_data h_plus))%nat) by (eapply lookup_lt_Some; exact Ha).
    destruct (ts_data h_plus !! 0%nat) as [x0|] eqn:Hx0;
      [|apply lookup_ge_None in Hx0; lia].
    destruct (ts_data h_cross !! 0%nat) as [y0|] eqn:Hy0;
      [|apply lookup_ge_None in Hy0; lia].
    destruct (proj1 (Forall_lookup _ _) Fp 0%nat x0 Hx0) as [a0 ->].
    destruct (proj1 (Forall_lookup _ _) Fc 0%nat y0 Hy0) as [b0 ->].
    destruct (Qeq_dec a0 0) as [Za0|Na0]; [destruct (Qeq_dec b0 0) as [Zb0|Nb0]|].
    + destruct (phase_from_polarizations_all_nan atan_fin half_pi lal_pi h_plus h_cross
                  a0 b0 Hl Hx0 Hy0 Za0 Zb0) as [r [Hr [Hlr Fr]]].
      exists r. split; [exact Hr|].
      destruct (lookup_lt_is_Some_2 (ts_data r) i) as [x Hx]; [lia|].
      rewrite Hx. f_equal. exact (proj1 (Forall_lookup _ _) Fr i x Hx).
    + destruct (phase_from_polarizations_nan_core atan_fin half_pi lal_pi h_plus h_cross Hl)
        as [r [Hr Hpt]]; [exists a0, b0; split; [exact Hx0|split; [exact Hy0|tauto]]|].
      exists r. split; [exact Hr|]. exact (proj1 (Hpt i a b Ha Hb) (conj Za Zb)).
    + destruct (phase_from_polarizations_nan_core atan_fin half_pi lal_pi h_plus h_cross Hl)
        as [r [Hr Hpt]]; [exists a0, b0; split; [exact Hx0|split; [exact Hy0|tauto]]|].
      exists r. split; [exact Hr|]. exact (proj1 (Hpt i a b Ha Hb) (conj Za Zb)).
Qed.

(** [0.0/0.0] is NaN, and NaN taken as [p[0]] spreads to every sample. *)
Lemma phase_zero_over_zero (atan_fin : Q -> Q) (half_pi lal_pi : Q) (dt t0 : fl) :
  phase_from_polarizations atan_fin half_pi lal_pi (mk_ts [Fin 0] dt t0) (mk_ts [Fin 0] dt t0)
  = Some (mk_ts [NaN] dt t0).
Proof. reflexivity. Qed.

(** C2 fails as stated: with [h_plus = h_cross = [0.0]] the single sample
    of the phase is NaN, which is neither 0 nor [>= 0].  [arctan] is here
    the rational approximation [x / (1 + 0.28 x^2)]; the result does not
    depend on it. *)
Lemma phase_from_polarizations_start_nonneg_cex :
  exists r x,
    phase_from_polarizations (fun q => q / (1 + 0.28 * q * q))
      (3.141592653589793 / 2) 3.141592653589793
      (mk_ts [Fin 0] (Fin 1) (Fin 0)) (mk_ts [Fin 0] (Fin 1) (Fin 0)) = Some r /\
    ts_data r !! 0%nat = Some x /\ (forall q, x <> Fin q) /\ fl_le (Fin 0) x = false.
Proof.
  eexists _, NaN. split; [apply phase_zero_over_zero|].
  split; [reflexivity|]. split; [discriminate|reflexivity].
Qed.

(** ** Witnesses: the hypotheses of the claims' theorems hold on concrete inputs *)

Lemma unwrap_phase_jump_free_witness :
  unwrap_phase [0; 0.5; 1] 1 1 = Some [0; 0.5; 1].
Proof.
  apply (unwrap_phase_jump_free [0; 0.5; 1] 1 1).
  intros [|[|[|i]]] a b Ha Hb; simpl in Ha, Hb; try discriminate;
    injection Ha as <-; injection Hb as <-; split; lra.
Defined.

Lemma unwrap_jump_roundtrip_witness :
  exists s', run_loop 1 1 (mk_state [0; 0; 0] 0 (Some 0) 0) [-1; 0] = Some s' /\
             total_offset s' == 0.
Proof.
  apply (unwrap_jump_roundtrip 1 1 1 0 (-1) 0 (mk_state [0; 0; 0] 0 (Some 0) 0));
    simpl; try lra; try reflexivity; try lia.
Defined.

Lemma unwrap_phase_threshold_steps_witness :
  exists out, unwrap_phase [0; 1; 2 * 1] 1 1 = Some out /\
              Forall2 Qeq out [0; 1 - 1; 2 * 1 - 2 * 1].
Proof. apply (unwrap_phase_threshold_steps 1 1). lra. Defined.

Lemma phase_from_polarizations_start_nonneg_witness :
  (exists r, phase_from_polarizations (fun q => q / (1 + 0.28 * q * q))
               (3.141592653589793 / 2) 3.141592653589793
               (mk_ts [Fin 1; Fin 0] (Fin 1) (Fin 0))
               (mk_ts [Fin 0; Fin 2] (Fin 1) (Fin 0)) = Some r /\
     (exists q0, ts_data r !! 0%nat = Some (Fin q0) /\ q0 == 0) /\
     (forall i x, ts_data r !! i = Some x -> exists q, x = Fin q /\ 0 <= q)) /\
  (exists r, phase_from_polarizations (fun q => q / (1 + 0.28 * q * q))
               (3.141592653589793 / 2) 3.141592653589793
               (mk_ts [Fin 0; Fin 1] (Fin 1) (Fin 0))
               (mk_ts [Fin 0; Fin 1] (Fin 1) (Fin 0)) = Some r /\
     length (ts_data r) = 2%nat /\ Forall (fun x => x = NaN) (ts_data r)) /\
  (exists r, phase_from_polarizations (fun q => q / (1 + 0.28 * q * q))
               (3.141592653589793 / 2) 3.141592653589793
               (mk_ts [Fin 1; Fin 0] (Fin 1) (Fin 0))
               (mk_ts [Fin 1; Fin 0] (Fin 1) (Fin 0)) = Some r /\
     ts_data r !! 1%nat = Some NaN).
Proof.
  split; [|split].
  - apply (proj1 (phase_from_polarizations_start_nonneg (fun q => q / (1 + 0.28 * q * q))
             (3.141592653589793 / 2) 3.141592653589793
             (mk_ts [Fin 1; Fin 0] (Fin 1) (Fin 0)) (mk_ts [Fin 0; Fin 2] (Fin 1) (Fin 0))));
      simpl.
    + discriminate.
    + repeat constructor; eexists; reflexivity.
    + repeat constructor; eexists; reflexivity.
    + repeat constructor; intros a b Ha Hb; injection Ha as <-; injection Hb as <-; lra.
  - apply (proj1 (proj2 (phase_from_polarizations_start_nonneg
             (fun q => q / (1 + 0.28 * q * q)) (3.141592653589793 / 2) 3.141592653589793
             (mk_ts [Fin 0; Fin 1] (Fin 1) (Fin 0)) (mk_ts [Fin 0; Fin 1] (Fin 1) (Fin 0))))
             eq_refl 0 0 eq_refl eq_refl); reflexivity.
  - apply (proj2 (proj2 (phase_from_polarizations_start_nonneg
             (fun q => q / (1 + 0.28 * q * q)) (3.141592653589793 / 2) 3.141592653589793
             (mk_ts [Fin 1; Fin 0] (Fin 1) (Fin 0)) (mk_ts [Fin 1; Fin 0] (Fin 1) (Fin 0))))
             eq_refl) with (a := 0) (b := 0); simpl;
      first [reflexivity | repeat constructor; eexists; reflexivity].
Defined.

(** ** Further properties of the code *)

Lemma Qle_bool_compat (d x y : Q) : x == y -> Qle_bool d x = Qle_bool d y.
Proof.
  intros Hxy. apply eq_true_iff_eq. rewrite !Qle_bool_iff. split; intros; lra.
Qed.

(** The offset update only looks at the difference of two raw samples. *)
Lemma next_offset_diff (d o acc p p' v v' : Q) :
  v' - p' == v - p -> next_offset d o acc (Some p') v' = next_offset d o acc (Some p) v.
Proof.
  intros Hd. simpl.
  rewrite (Qle_bool_compat d (v' - p') (v - p)) by exact Hd.
  rewrite (Qle_bool_compat d (p' - v') (p - v)) by lra.
  reflexivity.
Qed.

Lemma unwrap_ref_go_shift (d o c : Q) (l : list Q) :
  forall (acc : Q) (prev : option Q),
  Forall2 Qeq (unwrap_ref_go d o acc (option_map (fun v => v + c) prev) (map (fun v => v + c) l))
              (map (fun x => x + c) (unwrap_ref_go d o acc prev l)).
Proof.
  induction l as [|v l IH]; intros acc prev; [constructor|].
  cbn [map]. rewrite !unwrap_ref_go_cons.
  assert (Hn : next_offset d o acc (option_map (fun v => v + c) prev) (v + c) =
               next_offset d o acc prev v).
  { destruct prev as [p|]; [|reflexivity]. apply next_offset_diff. ring. }
  rewrite Hn. cbn [map]. constructor.
  - cbn [py_add PyNum_Q]. ring.
  - exact (IH _ (Some v)).
Qed.

Lemma unwrap_ref_go_neg (d o : Q) (Hd : 0 < d) (l : list Q) :
  forall (acc acc' : Q) (prev : option Q), acc' == - acc ->
  Forall2 Qeq (unwrap_ref_go d o acc' (option_map Qopp prev) (map Qopp l))
              (map Qopp (unwrap_ref_go d o acc prev l)).
Proof.
  induction l as [|v l IH]; intros acc acc' prev Hacc; [constructor|].
  cbn [map]. rewrite !unwrap_ref_go_cons.
  assert (Hn : next_offset d o acc' (option_map Qopp prev) (- v) ==
               - next_offset d o acc prev v).
  { destruct prev as [p|]; simpl; [|exact Hacc].
    rewrite (Qle_bool_compat d (- v - - p) (p - v)) by (unfold Qminus; ring).
    rewrite (Qle_bool_compat d (- p - - v) (v - p)) by (unfold Qminus; ring).
    destruct (Qle_bool d (v - p)) eqn:E1, (Qle_bool d (p - v)) eqn:E2;
      try (unfold Qminus; lra).
    apply Qle_bool_iff in E1. apply Qle_bool_iff in E2. lra. }
  cbn [map]. constructor.
  - cbn [py_add PyNum_Q]. rewrite Hn. ring.
  - exact (IH _ _ (Some v) Hn).
Qed.

(** Which branch fires depends on [discont] and the raw samples only, not
    on [offset] or on the accumulator. *)
Lemma unwrap_ref_go_scale (d : Q) (l : list Q) :
  forall (k : Z) (prev : option Q),
  exists ks, length ks = length l /\
    forall (o acc : Q), acc == inject_Z k * o ->
    forall i x v kk, unwrap_ref_go d o acc prev l !! i = Some x -> l !! i = Some v ->
      ks !! i = Some kk -> x - v == inject_Z kk * o.
Proof.
  induction l as [|v l IH]; intros k prev.
  - exists []. split; [reflexivity|]. intros; discriminate.
  - set (k' := match prev with
               | None => k
               | Some p => if Qle_bool d (v - p) then (k - 1)%Z
                           else if Qle_bool d (p - v) then (k + 1)%Z else k
               end).
    destruct (IH k' (Some v)) as [ks [Hl Hks]].
    exists (k' :: ks). split; [simpl; lia|].
    intros o acc Hacc.
    assert (Hn : next_offset d o acc prev v == inject_Z k' * o).
    { subst k'. destruct prev as [p|]; simpl; [|exact Hacc].
      destruct (Qle_bool d (v - p)); [|destruct (Qle_bool d (p - v))].
      - rewrite Hacc. unfold Z.sub. rewrite inject_Z_plus, inject_Z_opp. ring.
      - rewrite Hacc, inject_Z_plus. ring.
      - exact Hacc. }
    rewrite unwrap_ref_go_cons.
    intros [|i] x w kk Ex Ew Ek; simpl in Ex, Ew, Ek.
    + injection Ex as <-. injection Ew as <-. injection Ek as <-.
      simpl py_add. rewrite <- Hn. ring.
    + exact (Hks o _ Hn i x w kk Ex Ew Ek).
Qed.

Lemma unwrap_ref_go_app {A} `{PyNum A} (d o : A) (pre rest : list A) :
  forall (acc : A) (prev : option A),
  exists acc' prev',
    unwrap_ref_go d o acc prev (pre ++ rest) =
    unwrap_ref_go d o acc prev pre ++ unwrap_ref_go d o acc' prev' rest.
Proof.
  induction pre as [|v pre IH]; intros acc prev.
  - exists acc, prev. reflexivity.
  - destruct (IH (next_offset d o acc prev v) (Some v)) as [acc' [prev' E]].
    exists acc', prev'. simpl app. rewrite !unwrap_ref_go_cons, E. reflexivity.
Qed.

(** The correction moves from one sample to the next by the offset update
    taken from a zero accumulator. *)
Lemma next_offset_shift (d o acc p v : Q) :
  next_offset d o acc (Some p) v == acc + next_offset d o 0 (Some p) v.
Proof.
  simpl. destruct (Qle_bool d (v - p)); [|destruct (Qle_bool d (p - v))]; ring.
Qed.

Lemma unwrap_ref_go_step (d o : Q) (l : list Q) :
  forall (acc : Q) (prev : option Q) i x1 x2 v1 v2,
  unwrap_ref_go d o acc prev l !! i = Some x1 ->
  unwrap_ref_go d o acc prev l !! S i = Some x2 ->
  l !! i = Some v1 -> l !! S i = Some v2 ->
  x2 - v2 == (x1 - v1) + next_offset d o 0 (Some v1) v2.
Proof.
  induction l as [|v l IH]; intros acc prev i x1 x2 v1 v2 E1 E2 F1 F2; [discriminate|].
  rewrite unwrap_ref_go_cons in E1, E2.
  destruct i as [|i]; simpl in E1, E2, F1, F2.
  - injection E1 as <-. injection F1 as <-.
    destruct l as [|v' l]; [discriminate|].
    rewrite unwrap_ref_go_cons in E2.
    set (n := next_offset d o (next_offset d o acc prev v) (Some v) v') in E2.
    set (n1 := next_offset d o acc prev v) in *.
    simpl in E2, F2. injection E2 as <-. injection F2 as <-.
    cbn [py_add PyNum_Q]. subst n. rewrite next_offset_shift. ring.
  - exact (IH _ _ i x1 x2 v1 v2 E1 E2 F1 F2).
Qed.

(** X1: adding a constant [c] to every input sample adds [c] to every
    output sample: only differences of raw samples are compared. *)
Theorem unwrap_phase_shift (vec : list Q) (c discont offset : Q) :
  exists out out',
    unwrap_phase vec discont offset = Some out /\
    unwrap_phase (map (fun v => v + c) vec) discont offset = Some out' /\
    Forall2 Qeq out' (map (fun x => x + c) out).
Proof.
  exists (unwrap_ref vec discont offset),
         (unwrap_ref (map (fun v => v + c) vec) discont offset).
  split; [apply unwrap_phase_ref|]. split; [apply unwrap_phase_ref|].
  exact (unwrap_ref_go_shift discont offset c vec 0 None).
Qed.

(** X2: with [discont > 0], negating every input sample negates every
    output sample: the two [elif] branches swap. *)
Theorem unwrap_phase_neg (vec : list Q) (discont offset : Q) (Hd : 0 < discont) :
  exists out out',
    unwrap_phase vec discont offset = Some out /\
    unwrap_phase (map Qopp vec) discont offset = Some out' /\
    Forall2 Qeq out' (map Qopp out).
Proof.
  exists (unwrap_ref vec discont offset), (unwrap_ref (map Qopp vec) discont offset).
  split; [apply unwrap_phase_ref|]. split; [apply unwrap_phase_ref|].
  apply (unwrap_ref_go_neg discont offset Hd vec 0 0 None). reflexivity.
Qed.

(** X3: the integer numbers of offset steps applied at each index depend
    only on the input and [discont]: for every [offset] the correction at
    index [i] is [k_i * offset] with the same [k_i]. *)
Theorem unwrap_phase_corrections_scale (vec : list Q) (discont : Q) :
  exists ks : list Z, length ks = length vec /\
    forall offset, exists out, unwrap_phase vec discont offset = Some out /\
      forall i x v k, out !! i = Some x -> vec !! i = Some v -> ks !! i = Some k ->
        x - v == inject_Z k * offset.
Proof.
  destruct (unwrap_ref_go_scale discont vec 0%Z None) as [ks [Hl Hks]].
  exists ks. split; [exact Hl|]. intros offset.
  exists (unwrap_ref vec discont offset). split; [apply unwrap_phase_ref|].
  apply Hks. cbn [py_zero PyNum_Q]. ring.
Qed.

(** X4: [unwrap_phase] is causal: on [pre ++ rest] its output starts with
    its output on [pre]. *)
Theorem unwrap_phase_prefix {A} `{PyNum A} (pre rest : list A) (discont offset : A) :
  exists out tail,
    unwrap_phase pre discont offset = Some out /\
    unwrap_phase (pre ++ rest) discont offset = Some (out ++ tail).
Proof.
  destruct (unwrap_ref_go_app discont offset pre rest py_zero None) as [acc' [prev' E]].
  exists (unwrap_ref pre discont offset), (unwrap_ref_go discont offset acc' prev' rest).
  split; [apply unwrap_phase_ref|]. rewrite unwrap_phase_ref. unfold unwrap_ref.
  rewrite E. reflexivity.
Qed.

(** X5: outside the precondition, with [discont <= 0], every step after the
    first changes the correction by exactly [-offset] or [+offset], and by
    [-offset] whenever the sample does not decrease. *)
Theorem unwrap_phase_nonpositive_discont (vec : list Q) (discont offset : Q)
    (Hd : discont <= 0) :
  exists out, unwrap_phase vec discont offset = Some out /\
    forall i x1 x2 v1 v2, out !! i = Some x1 -> out !! S i = Some x2 ->
      vec !! i = Some v1 -> vec !! S i = Some v2 ->
      ((x2 - v2) - (x1 - v1) == - offset \/ (x2 - v2) - (x1 - v1) == offset) /\
      (v1 <= v2 -> (x2 - v2) - (x1 - v1) == - offset).
Proof.
  exists (unwrap_ref vec discont offset). split; [apply unwrap_phase_ref|].
  intros i x1 x2 v1 v2 E1 E2 F1 F2.
  pose proof (unwrap_ref_go_step discont offset vec 0 None i x1 x2 v1 v2 E1 E2 F1 F2) as Hs.
  simpl in Hs.
  destruct (Qle_bool discont (v2 - v1)) eqn:B1.
  - split; [left; lra|intros; lra].
  - assert (B2 : v2 - v1 < discont).
    { apply Qnot_le_lt. intro Hc. apply Qle_bool_iff in Hc. congruence. }
    rewrite (Qle_bool_true discont (v1 - v2)) in Hs by lra.
    split; [right; lra|intros; lra].
Qed.

(** X9: whenever [amplitude_from_polarizations] returns a series, it has
    the length of [h_plus] and takes [delta_t] and [start_time] from
    [h_plus]. *)
Theorem amplitude_from_polarizations_shape (h_plus h_cross : TimeSeries float)
    (r : TimeSeries float) :
  amplitude_from_polarizations h_plus h_cross = Some r ->
  length (ts_data r) = length (ts_data h_plus) /\
  delta_t r = delta_t h_plus /\ start_time r = start_time h_plus.
Proof.
  unfold amplitude_from_polarizations, elementwise, squared_norm.
  rewrite !length_map.
  destruct (Nat.eqb_spec (length (ts_data h_plus)) (length (ts_data h_cross))) as [E|E];
    [|discriminate].
  intros Hr. injection Hr as <-. cbn [ts_data delta_t start_time].
  rewrite length_map, length_zip_with, !length_map. split; [lia|done].
Qed.

(** X7: when the first samples of the polarizations are finite and not both
    0, the phase exists, and at every index with finite samples [a], [b] it
    is NaN exactly when [a = b = 0], and a finite non-negative number
    otherwise (for any [arctan] and any value of [LAL_PI]). *)
Theorem phase_from_polarizations_nan_at_zero_zero (atan_fin : Q -> Q) (half_pi lal_pi : Q)
    (h_plus h_cross : TimeSeries fl) :
  length (ts_data h_plus) = length (ts_data h_cross) ->
  (exists a0 b0, ts_data h_plus !! 0%nat = Some (Fin a0) /\
                 ts_data h_cross !! 0%nat = Some (Fin b0) /\ ~ (a0 == 0 /\ b0 == 0)) ->
  exists r, phase_from_polarizations atan_fin half_pi lal_pi h_plus h_cross = Some r /\
    forall i a b, ts_data h_plus !! i = Some (Fin a) -> ts_data h_cross !! i = Some (Fin b) ->
      (a == 0 /\ b == 0 -> ts_data r !! i = Some NaN) /\
      (~ (a == 0 /\ b == 0) -> exists q, ts_data r !! i = Some (Fin q) /\ 0 <= q).
Proof. apply phase_from_polarizations_nan_core. Qed.

(** X8: whenever [phase_from_polarizations] returns a series, it has the
    length of [h_plus] and takes [delta_t] and [start_time] from [h_plus]. *)
Theorem phase_from_polarizations_shape (atan_fin : Q -> Q) (half_pi lal_pi : Q)
    (h_plus h_cross : TimeSeries fl) (r : TimeSeries fl) :
  phase_from_polarizations atan_fin half_pi lal_pi h_plus h_cross = Some r ->
  length (ts_data r) = length (ts_data h_plus) /\
  delta_t r = delta_t h_plus /\ start_time r = start_time h_plus.
Proof.
  unfold phase_from_polarizations, elementwise.
  destruct (Nat.eqb_spec (length (ts_data h_plus)) (length (ts_data h_cross))) as [E|E];
    [|discriminate].
  cbv zeta. rewrite unwrap_phase_ref. cbv beta iota.
  destruct (_ !! 0%nat) as [p0|]; [|discriminate].
  intros Hr. injection Hr as <-. cbn [ts_data delta_t start_time].
  rewrite !length_map. unfold unwrap_ref.
  rewrite unwrap_ref_go_length, length_map, length_zip_with. split; [lia|done].
Qed.

Lemma unwrap_phase_neg_witness :
  exists out out',
    unwrap_phase [0; 2; 1] 1 1 = Some out /\
    unwrap_phase (map Qopp [0; 2; 1]) 1 1 = Some out' /\
    Forall2 Qeq out' (map Qopp out).
Proof. apply (unwrap_phase_neg [0; 2; 1] 1 1). lra. Defined.

Lemma unwrap_phase_nonpositive_discont_witness :
  exists out, unwrap_phase [0; 1; 0.5] 0 1 = Some out /\
    forall i x1 x2 v1 v2, out !! i = Some x1 -> out !! S i = Some x2 ->
      [0; 1; 0.5] !! i = Some v1 -> [0; 1; 0.5] !! S i = Some v2 ->
      ((x2 - v2) - (x1 - v1) == - 1 \/ (x2 - v2) - (x1 - v1) == 1) /\
      (v1 <= v2 -> (x2 - v2) - (x1 - v1) == - 1).
Proof. apply (unwrap_phase_nonpositive_discont [0; 1; 0.5] 0 1). lra. Defined.

Lemma phase_from_polarizations_nan_at_zero_zero_witness :
  exists r, phase_from_polarizations (fun q => q / (1 + 0.28 * q * q))
              (3.141592653589793 / 2) 3.141592653589793
              (mk_ts [Fin 1; Fin 0] (Fin 1) (Fin 0))
              (mk_ts [Fin 1; Fin 0] (Fin 1) (Fin 0)) = Some r /\
    forall i a b, [Fin 1; Fin 0] !! i = Some (Fin a) -> [Fin 1; Fin 0] !! i = Some (Fin b) ->
      (a == 0 /\ b == 0 -> ts_data r !! i = Some NaN) /\
      (~ (a == 0 /\ b == 0) -> exists q, ts_data r !! i = Some (Fin q) /\ 0 <= q).
Proof.
  apply (phase_from_polarizations_nan_at_zero_zero (fun q => q / (1 + 0.28 * q * q))
           (3.141592653589793 / 2) 3.141592653589793
           (mk_ts [Fin 1; Fin 0] (Fin 1) (Fin 0)) (mk_ts [Fin 1; Fin 0] (Fin 1) (Fin 0))).
  - reflexivity.
  - exists 1, 1. split; [reflexivity|]. split; [reflexivity|]. lra.
Defined.

Lemma amplitude_from_polarizations_shape_witness :
  exists r, amplitude_from_polarizations (mk_ts [3.0%float; 0.0%float] 1%float 0%float)
                                         (mk_ts [4.0%float; 2.0%float] 1%float 0%float) = Some r /\
    length (ts_data r) = 2%nat /\ delta_t r = 1%float /\ start_time r = 0%float.
Proof.
  eexists; split; [reflexivity|].
  apply (amplitude_from_polarizations_shape (mk_ts [3.0%float; 0.0%float] 1%float 0%float)
           (mk_ts [4.0%float; 2.0%float] 1%float 0%float)).
  reflexivity.
Defined.

Lemma phase_from_polarizations_shape_witness :
  exists r, phase_from_polarizations (fun q => q / (1 + 0.28 * q * q))
              (3.141592653589793 / 2) 3.141592653589793
              (mk_ts [Fin 1; Fin 0] (Fin 1) (Fin 0))
              (mk_ts [Fin 0; Fin 2] (Fin 1) (Fin 0)) = Some r /\
    length (ts_data r) = 2%nat /\ delta_t r = Fin 1 /\ start_time r = Fin 0.
Proof.
  eexists; split; [reflexivity|].
  apply (phase_from_polarizations_shape (fun q => q / (1 + 0.28 * q * q))
           (3.141592653589793 / 2) 3.141592653589793
           (mk_ts [Fin 1; Fin 0] (Fin 1) (Fin 0)) (mk_ts [Fin 0; Fin 2] (Fin 1) (Fin 0))).
  reflexivity.
Defined.
